(** * cupyx.scipy.ndimage._util: boundary-index resolution and parameter checks

    The Python module emits CUDA/C source fragments as text and validates
    filter parameters.  The fragments are modelled as abstract syntax of the
    small C subset they use, the generators as functions returning that
    syntax, and the meaning of a fragment by an evaluator over [Z] with C's
    truncating [/] and [%] (division by zero is undefined: no result).
    The Python helpers that do not emit text are plain functions returning
    either an exception or a value. *)

From stdpp Require Import gmap strings list fin_maps pretty.
From Stdlib Require Import ZArith Lia.

Open Scope Z_scope.

(** ** The C fragment language *)

Module C.

Inductive binop : Type :=
  | Add | Sub | Mul | Div | Mod
  | Lt | Gt | Ge | Eq
  | LOr.

Inductive expr : Type :=
  | Var (x : string)
  | Lit (n : Z)
  | Neg (e : expr)
  | Bin (op : binop) (a b : expr)
  | Call (f : string) (a b : expr)
  | Cast (T : string) (e : expr).

Inductive stmt : Type :=
  | Skip
  | Decl (T x : string) (e : expr)
  | Assign (x : string) (e : expr)
  | OpAssign (op : binop) (x : string) (e : expr)
  | If (c : expr) (s1 s2 : stmt)
  | While (c : expr) (body : stmt)
  | Seq (s1 s2 : stmt).

(** Variables of the kernel hold integers; the fragments never declare the
    type of [ix] or [xsize] themselves, so arithmetic is over [Z]. *)
Abbreviation env := (gmap string Z).

Definition of_bool (b : bool) : Z := if b then 1 else 0.

(** [a / b] and [a % b] truncate toward zero in C and are undefined for
    [b = 0]. *)
Definition arith (op : binop) (a b : Z) : option Z :=
  match op with
  | Add => Some (a + b)
  | Sub => Some (a - b)
  | Mul => Some (a * b)
  | Div => if decide (b = 0) then None else Some (Z.quot a b)
  | Mod => if decide (b = 0) then None else Some (Z.rem a b)
  | Lt => Some (of_bool (a <? b))
  | Gt => Some (of_bool (a >? b))
  | Ge => Some (of_bool (a >=? b))
  | Eq => Some (of_bool (a =? b))
  | LOr => Some (of_bool (negb (a =? 0) || negb (b =? 0)))
  end.

(** The integer library functions the fragments call.  [fmin] and [fmax]
    work on floating values and have no integer meaning here. *)
Definition call (f : string) (a b : Z) : option Z :=
  if decide (f = "min") then Some (Z.min a b)
  else if decide (f = "max") then Some (Z.max a b)
  else None.

Fixpoint eval (m : env) (e : expr) : option Z :=
  match e with
  | Var x => m !! x
  | Lit n => Some n
  | Neg e => a ← eval m e; Some (- a)
  | Bin LOr a b =>
      va ← eval m a;
      if decide (va = 0) then vb ← eval m b; Some (of_bool (negb (vb =? 0)))
      else Some 1
  | Bin op a b => va ← eval m a; vb ← eval m b; arith op va vb
  | Call f a b => va ← eval m a; vb ← eval m b; call f va vb
  | Cast _ e => eval m e
  end.

(** [exec fuel s m] runs [s] from [m]; [fuel] bounds the number of times a
    [while] condition is tested. *)
Fixpoint exec (fuel : nat) (s : stmt) (m : env) : option env :=
  match s with
  | Skip => Some m
  | Decl _ x e => v ← eval m e; Some (<[x := v]> m)
  | Assign x e => v ← eval m e; Some (<[x := v]> m)
  | OpAssign op x e =>
      old ← m !! x; v ← eval m e; r ← arith op old v; Some (<[x := r]> m)
  | If c s1 s2 =>
      vc ← eval m c;
      if decide (vc = 0) then exec fuel s2 m else exec fuel s1 m
  | Seq s1 s2 => m' ← exec fuel s1 m; exec fuel s2 m'
  | While c body =>
      (fix loop (n : nat) (m : env) {struct n} : option env :=
         match n with
         | O => None
         | S n' =>
             vc ← eval m c;
             if decide (vc = 0) then Some m
             else m' ← exec fuel body m; loop n' m'
         end) fuel m
  end.

Fixpoint seq_of (l : list stmt) : stmt :=
  match l with
  | [] => Skip
  | s :: l' => Seq s (seq_of l')
  end.

End C.

Import C.

(** ** Boundary-mode resolver *)

(** [_generate_boundary_condition_ops mode ix xsize int_t float_ix]: the
    fragment emitted for [mode], over the variable names [ix] and [xsize].
    No branch matches an unknown mode; Python then fails at [return ops]
    ([None] here). *)
Definition _generate_boundary_condition_ops
    (mode ix xsize int_t : string) (float_ix : bool) : option stmt :=
  let min_func := if float_ix then "fmin" else "min" in
  let max_func := if float_ix then "fmax" else "max" in
  if bool_decide (mode ∈ ["reflect"; "grid-mirror"]) then
    Some (seq_of
      [ If (Bin Lt (Var ix) (Lit 0))
           (Assign ix (Bin Sub (Neg (Lit 1)) (Var ix)))
           Skip;
        OpAssign Mod ix (Bin Mul (Var xsize) (Lit 2));
        Assign ix (Call min_func (Var ix)
          (Bin Sub (Bin Sub (Bin Mul (Lit 2) (Var xsize)) (Lit 1)) (Var ix)))
      ])
  else if bool_decide (mode = "mirror") then
    Some
      (If (Bin Eq (Var xsize) (Lit 1))
          (Assign ix (Lit 0))
          (seq_of
            [ If (Bin Lt (Var ix) (Lit 0)) (Assign ix (Neg (Var ix))) Skip;
              Assign ix
                (Bin Add (Lit 1)
                   (Bin Mod (Bin Sub (Var ix) (Lit 1))
                            (Bin Mul (Bin Sub (Var xsize) (Lit 1)) (Lit 2))));
              Assign ix (Call min_func (Var ix)
                (Bin Sub (Bin Sub (Bin Mul (Lit 2) (Var xsize)) (Lit 2))
                         (Var ix)))
            ]))
  else if bool_decide (mode = "nearest") then
    let T := if bool_decide (int_t = "int") then "int" else "long long" in
    Some
      (Assign ix
         (Call min_func
            (Call max_func (Cast T (Var ix)) (Cast T (Lit 0)))
            (Cast T (Bin Sub (Var xsize) (Lit 1)))))
  else if bool_decide (mode = "grid-wrap") then
    Some (seq_of
      [ OpAssign Mod ix (Var xsize);
        While (Bin Lt (Var ix) (Lit 0)) (OpAssign Add ix (Var xsize))
      ])
  else if bool_decide (mode = "wrap") then
    Some
      (If (Bin Lt (Var ix) (Lit 0))
          (OpAssign Add ix
             (Bin Mul (Bin Sub (Var xsize) (Lit 1))
                (Bin Add
                   (Cast int_t
                      (Bin Div (Neg (Var ix)) (Bin Sub (Var xsize) (Lit 1))))
                   (Lit 1))))
          (If (Bin Gt (Var ix) (Bin Sub (Var xsize) (Lit 1)))
              (OpAssign Sub ix
                 (Bin Mul (Bin Sub (Var xsize) (Lit 1))
                    (Cast int_t
                       (Bin Div (Var ix) (Bin Sub (Var xsize) (Lit 1))))))
              Skip))
  else if bool_decide (mode ∈ ["constant"; "grid-constant"]) then
    Some
      (If (Bin LOr (Bin Lt (Var ix) (Lit 0)) (Bin Ge (Var ix) (Var xsize)))
          (Assign ix (Neg (Lit 1)))
          Skip)
  else None.

(** The modes for which the resolver has a branch. *)
Definition resolver_modes : list string :=
  [ "reflect"; "grid-mirror"; "mirror"; "nearest"; "grid-wrap"; "wrap";
    "constant"; "grid-constant" ].

(** [resolve fuel mode int_t ix xsize]: the value left in the coordinate
    variable by the fragment for [mode], started with the integer coordinate
    [ix] on an axis of size [xsize]. *)
Definition resolve (fuel : nat) (mode int_t : string) (ix xsize : Z)
    : option Z :=
  ops ← _generate_boundary_condition_ops mode "ix" "xsize" int_t false;
  m ← exec fuel ops (<["ix" := ix]> (<["xsize" := xsize]> ∅));
  m !! "ix".

Definition SENTINEL : Z := -1.

(** What the fragments compute, mode by mode, written as arithmetic on the
    initial coordinate (the C operators kept as they are). *)
Definition reflect_val (ix xs : Z) : Z :=
  let a := if ix <? 0 then -1 - ix else ix in
  let b := Z.rem a (xs * 2) in
  Z.min b (2 * xs - 1 - b).


Definition nearest_val (ix xs : Z) : Z := Z.min (Z.max ix 0) (xs - 1).

Definition grid_wrap_val (ix xs : Z) : Z :=
  let r := Z.rem ix xs in
  if r <? 0 then r + xs else r.

Definition wrap_val (ix xs : Z) : Z :=
  if ix <? 0 then ix + (xs - 1) * (Z.quot (- ix) (xs - 1) + 1)
  else if ix >? xs - 1 then ix - (xs - 1) * Z.quot ix (xs - 1)
  else ix.

Definition constant_val (ix xs : Z) : Z :=
  if (ix <? 0) || (ix >=? xs) then -1 else ix.


Definition wrap_spec (ix xsize : Z) : Z :=
  if decide (ix < 0) then ix + (xsize - 1) * ((- ix) `div` (xsize - 1) + 1)
  else if decide (ix > xsize - 1) then ix - (xsize - 1) * (ix `div` (xsize - 1))
  else ix.

(** ** Parameter checks *)

Inductive exn : Type :=
  | RuntimeError (msg : string)
  | ValueError (msg : string)
  | AxisError (msg : string)
  | ZeroDivisionError.

(** [_check_origin origin width], for an integer [origin]; [//] is Python's
    floored division. *)
Definition _check_origin (origin width : Z) : exn + Z :=
  if bool_decide (width `div` 2 + origin < 0)
     || bool_decide (width `div` 2 + origin >= width)
  then inl (ValueError "invalid origin")
  else inr origin.



Definition check_mode_tags : list string :=
  [ "reflect"; "constant"; "nearest"; "mirror"; "wrap";
    "grid-mirror"; "grid-wrap"; "grid-reflect" ].

Definition _check_mode (mode : string) : exn + string :=
  if bool_decide (mode ∉ check_mode_tags) then
    inl (RuntimeError
           ("boundary mode not supported (actual: " +:+ mode +:+ ")"))
  else inr mode.

(** The [axes] argument of [_check_axes]: [None], an integer scalar, a
    container that can be iterated again (list, tuple, range), a one-shot
    iterator (generator, [iter(...)]) with the items it has left, or an
    object that is none of these. *)
Inductive axes_arg : Type :=
  | AxNone
  | AxScalar (n : Z)
  | AxSeq (l : list Z)
  | AxIter (l : list Z)
  | AxOther.

Definition axis_out_of_range (ndim ax : Z) : bool :=
  bool_decide (ax < - ndim) || bool_decide (ax > ndim - 1).

Definition axis_error (ax : Z) : exn :=
  AxisError ("specified axis: " +:+ pretty ax +:+ " is out of range").

(** The [for ax in axes] loop over a container.  [pending] is what the loop's
    own iterator has left; [axes] is the variable, rebound in every round to
    the tuple of the same integers ([operator.index] of an integer is
    itself). *)
Fixpoint for_ax_in_container (ndim : Z) (pending axes : list Z)
    : exn + list Z :=
  match pending with
  | [] => inr axes
  | ax :: rest =>
      let axes := axes in
      if axis_out_of_range ndim ax then inl (axis_error ax)
      else for_ax_in_container ndim rest axes
  end.

(** The same loop when [axes] is a one-shot iterator: the loop draws from the
    very object that the generator expression in its body drains.  The first
    round takes the first item, rebinds [axes] to the tuple of all the others,
    checks the first item, and the loop then ends on the exhausted
    iterator. *)
Definition for_ax_in_iterator (ndim : Z) (items : list Z) : exn + list Z :=
  match items with
  | [] => inr []
  | ax :: rest =>
      let axes := rest in
      if axis_out_of_range ndim ax then inl (axis_error ax)
      else inr axes
  end.

(** [tuple(ax % ndim if ax < 0 else ax for ax in axes)]; Python's [%] is the
    floored remainder and raises on a zero divisor. *)
Fixpoint normalize_axes (ndim : Z) (axes : list Z) : exn + list Z :=
  match axes with
  | [] => inr []
  | ax :: rest =>
      if bool_decide (ax < 0) then
        if bool_decide (ndim = 0) then inl ZeroDivisionError
        else
          match normalize_axes ndim rest with
          | inl e => inl e
          | inr t => inr (ax `mod` ndim :: t)
          end
      else
        match normalize_axes ndim rest with
        | inl e => inl e
        | inr t => inr (ax :: t)
        end
  end.

(** [if len(tuple(set(axes))) != len(axes): raise ...; return axes] *)
Definition unique_or_raise (axes : list Z) : exn + list Z :=
  if bool_decide (size (list_to_set axes : gset Z) ≠ length axes) then
    inl (ValueError "axes must be unique")
  else inr axes.

Definition _check_axes (axes : axes_arg) (ndim : Z) : exn + list Z :=
  match axes with
  | AxNone => inr (Z.of_nat <$> seq 0 (Z.to_nat ndim))
  | AxScalar n => unique_or_raise [n]
  | AxSeq l =>
      match for_ax_in_container ndim l l with
      | inl e => inl e
      | inr axes =>
          match normalize_axes ndim axes with
          | inl e => inl e
          | inr axes => unique_or_raise axes
          end
      end
  | AxIter l =>
      match for_ax_in_iterator ndim l with
      | inl e => inl e
      | inr axes =>
          match normalize_axes ndim axes with
          | inl e => inl e
          | inr axes => unique_or_raise axes
          end
      end
  | AxOther =>
      inl (ValueError "axes must be an integer, iterable of integers, or None")
  end.

(** The range [-ndim, ndim) of an axis index, and its normal form. *)
Definition axis_in_range (ndim ax : Z) : Prop := - ndim <= ax <= ndim - 1.

(** [ax % ndim if ax < 0 else ax] *)
Definition normalize_axis (ndim ax : Z) : Z :=
  if bool_decide (ax < 0) then ax `mod` ndim else ax.

(** What the specification asks of the returned tuple. *)
Definition canonical_axes (ndim : Z) (t : list Z) : Prop :=
  NoDup t ∧ Forall (λ ax, 0 <= ax < ndim) t.

(** ** Index-width selector *)

(** The attributes of an array that [_get_inttype] reads: [shape],
    [strides] (in bytes, signed) and [dtype.itemsize]. *)
Record ndarray : Type := {
  shape : list Z;
  strides : list Z;
  itemsize : Z
}.

(** Python's [sum] over integers. *)
Definition sum_Z (l : list Z) : Z := foldr Z.add 0 l.

Definition _get_inttype (input : ndarray) : string :=
  let nbytes :=
    sum_Z ((λ p : Z * Z, (p.1 - 1) * Z.abs p.2) <$>
             zip (shape input) (strides input))
    + itemsize input in
  if bool_decide (nbytes < Z.shiftl 1 31) then "int" else "ptrdiff_t".

(** The reachable byte span in the words of the specification: the sum over
    the axes of [(extent_i - 1) * |stride_i|], plus the element size. *)
Fixpoint axis_spans (extents strides : list Z) : Z :=
  match extents, strides with
  | x :: extents', s :: strides' =>
      (x - 1) * Z.abs s + axis_spans extents' strides'
  | _, _ => 0
  end.

Definition byte_span (a : ndarray) : Z :=
  axis_spans (shape a) (strides a) + itemsize a.

(** Modelled from the spec: the array type itself is not part of these
    sources; a contiguous (row-major) array has the element size as the stride
    of its last axis and, on every other axis, the stride of the next axis
    times that axis' extent. *)
Fixpoint contiguous_strides (shape : list Z) (itemsize : Z) : list Z :=
  match shape with
  | [] => []
  | _ :: rest =>
      itemsize * foldr Z.mul 1 rest :: contiguous_strides rest itemsize
  end.

Definition contiguous (shape : list Z) (itemsize : Z) : ndarray :=
  {| shape := shape;
     strides := contiguous_strides shape itemsize;
     itemsize := itemsize |}.

(** ** Multi-axis index decomposer *)

Definition ind_ (j : nat) : string := "ind_" +:+ pretty j.
Definition ysize_ (j : nat) : string := "ysize_" +:+ pretty j.

(** One line of the loop body:
    [{type} ind_{j} = _i % ysize_{j} - {offset}; _i /= ysize_{j};] *)
Definition indices_line (int_type : string) (j : nat) (offset : Z) : stmt :=
  Seq (Decl int_type (ind_ j)
         (Bin Sub (Bin Mod (Var "_i") (Var (ysize_ j))) (Lit offset)))
      (OpAssign Div "_i" (Var (ysize_ j))).

(** [offsets[j]] fails on a short list ([None]). *)
Definition _generate_indices_ops
    (ndim : nat) (int_type : string) (offsets : list Z) : option stmt :=
  body ← mapM (λ j, indices_line int_type j <$> offsets !! j)
              (rev (seq 1 (ndim - 1)));
  offset0 ← offsets !! 0%nat;
  Some (Seq (Decl int_type "_i" (Var "i"))
            (Seq (seq_of body)
                 (Decl int_type (ind_ 0) (Bin Sub (Var "_i") (Lit offset0))))).

(** The loop body for the axes [n, n - 1, ..., 1] once every [offsets[j]]
    is known to exist. *)
Definition indices_body (int_type : string) (offsets : list Z) (n : nat)
    : list stmt :=
  (λ j, indices_line int_type j (offsets !!! j)) <$> rev (seq 1 n).

(** The decomposition in the words of the specification: a loop over [j]
    from [ndim - 1] down to 1 that sets [ind_j] to [i mod ysize_j - offset_j]
    and then replaces [i] by [i div ysize_j]; after it, [ind_0] is what
    remains of [i], less [offset_0]. *)
Fixpoint decompose_loop (j : nat) (ysize offset : list Z) (i : Z)
    (ind : list Z) : Z * list Z :=
  match j with
  | O => (i, ind)
  | S j' =>
      decompose_loop j' ysize offset
        (i `div` (ysize !!! j))
        (<[j := i `mod` (ysize !!! j) - offset !!! j]> ind)
  end.

Definition decompose_spec (ndim : nat) (ysize offset : list Z) (i : Z)
    : list Z :=
  let '(i, ind) :=
    decompose_loop (ndim - 1) ysize offset i (replicate ndim 0) in
  <[0%nat := i - offset !!! 0%nat]> ind.

(** Runs the generated fragment in a kernel state and reads back
    [ind_0 .. ind_{ndim-1}]. *)
Definition decompose (ndim : nat) (int_type : string) (offsets : list Z)
    (m : env) : option (list Z) :=
  ops ← _generate_indices_ops ndim int_type offsets;
  m' ← exec 0 ops m;
  mapM (λ j, m' !! ind_ j) (seq 0 ndim).

(** A kernel state with the variables the fragment reads: the flat index [i]
    and the window extents [ysize_j], [ysize_{j+1}], ... *)
Fixpoint bind_ysize (j : nat) (ysize : list Z) (m : env) : env :=
  match ysize with
  | [] => m
  | y :: rest => <[ysize_ j := y]> (bind_ysize (S j) rest m)
  end.

Definition window_env (i : Z) (ysize : list Z) : env :=
  bind_ysize 0 ysize (<["i" := i]> ∅).

(** The row-major flat index of the coordinates [coords] on the axes
    [0 .. n] of a window with extents [ysize] (Horner's scheme, last axis
    fastest). *)
Fixpoint ravel (n : nat) (ysize coords : list Z) : Z :=
  match n with
  | O => coords !!! 0%nat
  | S k => ravel k ysize coords * ysize !!! n + coords !!! n
  end.

(** ** Per-axis arguments *)

(** The [arg] of [_fix_sequence_arg]: a [str], a value that cannot be
    iterated ([iter(arg)] raises [TypeError]), or an iterable with its
    items. *)
Inductive sequence_arg (V : Type) : Type :=
  | ArgStr (s : V)
  | ArgAtom (v : V)
  | ArgIterable (l : list V).

Arguments ArgStr {V} s.
Arguments ArgAtom {V} v.
Arguments ArgIterable {V} l.

(** [[conv(x) for x in arg]]: the first exception raised by [conv] ends the
    comprehension. *)
Fixpoint convert_items {V B} (conv : V → exn + B) (l : list V)
    : exn + list B :=
  match l with
  | [] => inr []
  | x :: rest =>
      match conv x with
      | inl e => inl e
      | inr y =>
          match convert_items conv rest with
          | inl e => inl e
          | inr ys => inr (y :: ys)
          end
      end
  end.

(** [[conv(arg)] * ndim] is the empty list for [ndim <= 0]. *)
Definition _fix_sequence_arg {V B} (arg : sequence_arg V) (ndim : Z)
    (name : string) (conv : V → exn + B) : exn + list B :=
  match arg with
  | ArgStr s =>
      match conv s with
      | inl e => inl e
      | inr y => inr (replicate (Z.to_nat ndim) y)
      end
  | ArgAtom v =>
      match conv v with
      | inl e => inl e
      | inr y => inr (replicate (Z.to_nat ndim) y)
      end
  | ArgIterable l =>
      match convert_items conv l with
      | inl e => inl e
      | inr lst =>
          if bool_decide (Z.of_nat (length lst) ≠ ndim) then
            inl (RuntimeError
                   (name +:+ " must have length equal to input rank"))
          else inr lst
      end
  end.

(** ** Fill value check *)

Inductive cval_exn : Type :=
  | NotImplementedError (msg : string).

(** [_check_cval mode cval integer_output]; the fill value enters only
    through [cupy.isfinite(cval)], passed here as [cval_isfinite]. *)
Definition _check_cval (mode : string) (cval_isfinite integer_output : bool)
    : cval_exn + unit :=
  if bool_decide (mode = "constant") && integer_output && negb cval_isfinite
  then
    inl (NotImplementedError
           "Non-finite cval is not supported for outputs with integer dtype.")
  else inr ().

(** ** Output buffers and weight types *)

Section Dtypes.

(** The data types and the promotion table belong to the array library, not
    to this module; they are parameters here.  [kind] is [dtype.kind], and
    [real_dtype d] the type of [x.real] for an array [x] of type [d]. *)
Context {dtype : Type}.
Context (kind : dtype → string).
Context (promote_types : dtype → dtype → dtype).
Context (complex64 float32 float64 : dtype).
Context (real_dtype : dtype → dtype).

(** What [_get_output] reads of an array: [shape] and [dtype]. *)
Record array : Type := {
  array_shape : list Z;
  array_dtype : dtype
}.

(** The [output] argument: [None], an array, a type or dtype object, or a
    string naming the type [d]. *)
Inductive output_arg : Type :=
  | OutNone
  | OutArray (a : array)
  | OutDtype (d : dtype)
  | OutStr (d : dtype).

(** [kind in 'iu'] for a one-letter kind. *)
Definition kind_in (letters : list string) (d : dtype) : bool :=
  bool_decide (kind d ∈ letters).

Definition _is_integer_output (output : output_arg) (input : array) : bool :=
  match output with
  | OutNone => kind_in ["i"; "u"] (array_dtype input)
  | OutArray a => kind_in ["i"; "u"] (array_dtype a)
  | OutDtype d => kind_in ["i"; "u"] d
  | OutStr d => kind_in ["i"; "u"] d
  end.

Definition _init_weights_dtype (input : array) : dtype :=
  if bool_decide (kind (array_dtype input) = "c") then
    promote_types (real_dtype (array_dtype input)) complex64
  else promote_types (real_dtype (array_dtype input)) float32.

Definition _get_weights_dtype (input weights : array) : dtype :=
  if bool_decide (kind (array_dtype weights) = "c")
     || bool_decide (kind (array_dtype input) = "c")
  then promote_types (real_dtype (array_dtype input)) complex64
  else if kind_in ["i"; "u"; "b"] (array_dtype weights) then float64
  else promote_types (real_dtype (array_dtype input)) float32.

(** The result of [_get_output]: the array, whether it was newly allocated
    by [cupy.empty] or is the caller's own, and the warnings issued. *)
Record output_result : Type := {
  out_array : array;
  out_allocated : bool;
  out_warnings : list string
}.

Definition empty (shape : list Z) (d : dtype) : array :=
  {| array_shape := shape; array_dtype := d |}.

Definition _get_output (output : output_arg) (input : array)
    (shape : option (list Z)) (complex_output : bool)
    : exn + output_result :=
  let shape := match shape with None => array_shape input | Some s => s end in
  match output with
  | OutNone =>
      let _dtype :=
        if complex_output then promote_types (array_dtype input) complex64
        else array_dtype input in
      inr {| out_array := empty shape _dtype; out_allocated := true;
             out_warnings := [] |}
  | OutDtype d =>
      if complex_output && negb (bool_decide (kind d = "c")) then
        inr {| out_array := empty shape (promote_types d complex64);
               out_allocated := true;
               out_warnings :=
                 ["promoting specified output dtype to complex"] |}
      else
        inr {| out_array := empty shape d; out_allocated := true;
               out_warnings := [] |}
  | OutStr d =>
      if complex_output && negb (bool_decide (kind d = "c")) then
        inl (RuntimeError "output must have complex dtype")
      else
        inr {| out_array := empty shape d; out_allocated := true;
               out_warnings := [] |}
  | OutArray a =>
      if bool_decide (array_shape a ≠ shape) then
        inl (RuntimeError "output shape not correct")
      else if complex_output
              && negb (bool_decide (kind (array_dtype a) = "c")) then
        inl (RuntimeError "output must have complex dtype")
      else
        inr {| out_array := a; out_allocated := false; out_warnings := [] |}
  end.

End Dtypes.

(** A small table of types on which to run the functions of the section:
    kinds stand for types, and promotion with a complex type is complex. *)
Definition toy_promote (d1 d2 : string) : string :=
  if bool_decide (d1 = "c") || bool_decide (d2 = "c") then "c" else "f".

(** * Proofs *)

(** ** Running the fragments *)

Lemma call_min a b : call "min" a b = Some (Z.min a b).
Proof. reflexivity. Qed.

Lemma call_max a b : call "max" a b = Some (Z.max a b).
Proof. reflexivity. Qed.

(** The two arms of a conditional, chosen by the C truth value of a
    comparison. *)
Lemma branch_of_bool {A} (b : bool) (x y : A) :
  (if decide (of_bool b = 0) then x else y) = if b then y else x.
Proof. by destruct b. Qed.

Lemma of_bool_truth (b : bool) : of_bool (negb (of_bool b =? 0)) = of_bool b.
Proof. by destruct b. Qed.

Lemma elem_of_pair (x a b : string) : x ∈ [a; b] ↔ x = a ∨ x = b.
Proof. rewrite !elem_of_cons, elem_of_nil. tauto. Qed.

Lemma mode_in_resolver_modes mode :
  mode ∈ resolver_modes ↔
  mode ∈ ["reflect"; "grid-mirror"] ∨ mode = "mirror" ∨ mode = "nearest" ∨
  mode = "grid-wrap" ∨ mode = "wrap" ∨ mode ∈ ["constant"; "grid-constant"].
Proof.
  unfold resolver_modes. rewrite !elem_of_cons, !elem_of_nil. tauto.
Qed.

(** Decides the tests on closed mode tags in the generator. *)
Ltac pick_branch :=
  unfold _generate_boundary_condition_ops; cbv zeta;
  repeat match goal with
  | |- context [bool_decide ?P] =>
      let b := eval vm_compute in (bool_decide P) in
      lazymatch b with
      | true => change (bool_decide P) with true
      | false => change (bool_decide P) with false
      end
  end;
  cbv iota.

Ltac cfold :=
  cbn [mbind option_bind seq_of exec eval arith];
  rewrite ?call_min, ?call_max, ?of_bool_truth, ?branch_of_bool;
  repeat first
    [ rewrite lookup_insert_eq
    | rewrite lookup_insert_ne by done
    | rewrite insert_insert_eq ];
  cbn [mbind option_bind seq_of exec eval arith].

Ltac csplit :=
  match goal with
  | |- context [if ?b then _ else _] =>
      lazymatch b with
      | decide (?v = 0) =>
          first [ rewrite (decide_False (P := (v = 0))) by lia
                | rewrite (decide_True (P := (v = 0))) by lia ]
      | _ => let E := fresh "E" in destruct b eqn:E
      end
  end.

Ltac crun := repeat (cfold; try csplit).

Section Resolver.

Context (fuel : nat) (int_t : string).

Lemma resolve_reflect mode ix xs :
  mode ∈ ["reflect"; "grid-mirror"] → xs ≠ 0 →
  resolve fuel mode int_t ix xs = Some (reflect_val ix xs).
Proof.
  intros [-> | ->]%elem_of_pair Hx; unfold resolve, reflect_val;
    pick_branch; crun; done.
Qed.


Lemma resolve_nearest ix xs :
  resolve fuel "nearest" int_t ix xs = Some (nearest_val ix xs).
Proof. unfold resolve, nearest_val. pick_branch. crun. done. Qed.

Lemma resolve_wrap ix xs :
  xs ≠ 1 → resolve fuel "wrap" int_t ix xs = Some (wrap_val ix xs).
Proof. intros Hx. unfold resolve, wrap_val. pick_branch. crun; done. Qed.

Lemma resolve_constant mode ix xs :
  mode ∈ ["constant"; "grid-constant"] →
  resolve fuel mode int_t ix xs = Some (constant_val ix xs).
Proof.
  intros [-> | ->]%elem_of_pair; unfold resolve, constant_val; pick_branch.
  all: crun; done.
Qed.

Lemma resolve_grid_wrap ix xs :
  0 < xs → (2 <= fuel)%nat →
  resolve fuel "grid-wrap" int_t ix xs = Some (grid_wrap_val ix xs).
Proof.
  intros Hx Hf. destruct fuel as [| [| f]]; [lia | lia |].
  pose proof (Z.rem_bound_abs ix xs) as Hr.
  unfold resolve, grid_wrap_val. pick_branch. crun; (done || lia).
Qed.

End Resolver.

(** ** Arithmetic of the rules *)

Section Arithmetic.







Lemma grid_wrap_val_mod ix xs : 0 < xs → grid_wrap_val ix xs = ix `mod` xs.
Proof.
  intros Hx. unfold grid_wrap_val. cbv zeta.
  pose proof (Z.rem_bound_abs ix xs) as Hb.
  pose proof (Z.quot_rem' ix xs) as Hq.
  destruct (Z.ltb_spec (ix `rem` xs) 0).
  - apply (Z.mod_unique_pos _ _ (ix ÷ xs - 1)); lia.
  - apply (Z.mod_unique_pos _ _ (ix ÷ xs)); lia.
Qed.

Lemma wrap_val_spec ix xs : 1 < xs → wrap_val ix xs = wrap_spec ix xs.
Proof.
  intros Hx. unfold wrap_val, wrap_spec.
  destruct (Z.ltb_spec ix 0).
  - rewrite decide_True by done. by rewrite Z.quot_div_nonneg by lia.
  - rewrite decide_False by lia.
    destruct (Z.gtb_spec ix (xs - 1)).
    + rewrite decide_True by lia. by rewrite Z.quot_div_nonneg by lia.
    + by rewrite decide_False by lia.
Qed.

Lemma wrap_val_range ix xs : 1 < xs → 0 <= wrap_val ix xs < xs.
Proof.
  intros Hx. rewrite wrap_val_spec by done. unfold wrap_spec.
  repeat case_decide; [| | lia].
  - pose proof (Z.div_mod (- ix) (xs - 1)).
    pose proof (Z.mod_pos_bound (- ix) (xs - 1)). lia.
  - pose proof (Z.div_mod ix (xs - 1)).
    pose proof (Z.mod_pos_bound ix (xs - 1)). lia.
Qed.


End Arithmetic.

(** ** The resolver on its modes *)

Section ResolverClaims.

Context (fuel : nat) (int_t : string).


(** C1 (failing input): under the wrap mode on an axis of size 1 the fragment
    divides by [xsize - 1 = 0] for every coordinate but 0, so the coordinate 5
    gets no resolved value, neither the sentinel nor an index of the axis. *)
Theorem resolve_wrap_size_one_undefined :
  "wrap" ∈ resolver_modes ∧ 0 < 1 ∧
  resolve fuel "wrap" int_t 5 1 = None ∧
  resolve fuel "wrap" int_t (-2) 1 = None.
Proof.
  split; [by apply mode_in_resolver_modes; auto 10 |].
  split; [lia |].
  split; unfold resolve; pick_branch; crun; done.
Qed.



(** C5: under wrap on an axis longer than 1, a negative coordinate gains
    [(xsize - 1) * (floor(-ix / (xsize - 1)) + 1)], a coordinate above
    [xsize - 1] loses [(xsize - 1) * floor(ix / (xsize - 1))], and a
    coordinate in [0, xsize - 1] stays; -1 and 5 on an axis of size 5 resolve
    to 3 and 1. *)
Theorem wrap_rule ix xs :
  1 < xs →
  resolve fuel "wrap" int_t ix xs = Some (wrap_spec ix xs) ∧
  (ix < 0 →
   wrap_spec ix xs = ix + (xs - 1) * ((- ix) `div` (xs - 1) + 1)) ∧
  (ix > xs - 1 → wrap_spec ix xs = ix - (xs - 1) * (ix `div` (xs - 1))) ∧
  (0 <= ix <= xs - 1 → wrap_spec ix xs = ix) ∧
  resolve fuel "wrap" int_t (-1) 5 = Some 3 ∧
  resolve fuel "wrap" int_t 5 5 = Some 1.
Proof.
  intros Hx. rewrite !resolve_wrap by lia.
  repeat split; try done.
  - by rewrite wrap_val_spec.
  - intros H. unfold wrap_spec. by rewrite decide_True.
  - intros H. unfold wrap_spec. by rewrite decide_False, decide_True by lia.
  - intros H. unfold wrap_spec. by rewrite !decide_False by lia.
Qed.

(** C6: under grid-wrap every coordinate resolves to an index of the axis,
    the same as the coordinate [xsize] further; an axis of size 1 resolves
    every coordinate to 0; -1 and 5 on an axis of size 5 resolve to 4 and 0. *)
Theorem grid_wrap_periodic ix xs :
  0 < xs → (2 <= fuel)%nat →
  (∃ r, resolve fuel "grid-wrap" int_t ix xs = Some r ∧ 0 <= r < xs ∧
        resolve fuel "grid-wrap" int_t (ix + xs) xs = Some r) ∧
  resolve fuel "grid-wrap" int_t ix 1 = Some 0 ∧
  resolve fuel "grid-wrap" int_t (-1) 5 = Some 4 ∧
  resolve fuel "grid-wrap" int_t 5 5 = Some 0.
Proof.
  intros Hx Hf. rewrite !resolve_grid_wrap, !grid_wrap_val_mod by lia.
  split; [| by rewrite Z.mod_1_r].
  exists (ix `mod` xs). split; [done |]. split; [by apply Z.mod_pos_bound |].
  f_equal. replace (ix + xs) with (ix + 1 * xs) by lia.
  by rewrite Z.mod_add by lia.
Qed.

End ResolverClaims.



Lemma wrap_rule_witness :
  resolve 0 "wrap" "int" (-9) 5 = Some (wrap_spec (-9) 5).
Proof. apply (wrap_rule 0 "int" (-9) 5). lia. Defined.

Lemma grid_wrap_periodic_witness :
  ∃ r, resolve 2 "grid-wrap" "int" (-7) 3 = Some r ∧ 0 <= r < 3 ∧
       resolve 2 "grid-wrap" "int" (-7 + 3) 3 = Some r.
Proof. apply (grid_wrap_periodic 2 "int" (-7) 3); lia. Defined.

(** ** Mode check against the resolver *)

Section Modes.

Lemma _check_mode_accepts mode :
  mode ∈ check_mode_tags → _check_mode mode = inr mode.
Proof.
  intros Hm. unfold _check_mode. by rewrite bool_decide_eq_false_2 by auto.
Qed.

Lemma _check_mode_rejects mode :
  mode ∉ check_mode_tags →
  _check_mode mode =
    inl (RuntimeError
           ("boundary mode not supported (actual: " +:+ mode +:+ ")")).
Proof. intros Hm. unfold _check_mode. by rewrite bool_decide_eq_true_2. Qed.

(** Seven of the eight accepted tags have a branch in the resolver. *)
Lemma accepted_mode_resolved mode ix xsize int_t float_ix :
  mode ∈ check_mode_tags → mode ≠ "grid-reflect" →
  is_Some (_generate_boundary_condition_ops mode ix xsize int_t float_ix).
Proof.
  unfold check_mode_tags. rewrite !elem_of_cons, elem_of_nil.
  intros Hm Hne.
  repeat (destruct Hm as [-> | Hm]; [try done; pick_branch; eauto |]).
  done.
Qed.

(** C2 (failing input): the mode check returns the tag [grid-reflect]
    unchanged, and the resolver has no branch for it, whatever its other
    arguments. *)
Theorem grid_reflect_accepted_without_rule ix xsize int_t float_ix :
  "grid-reflect" ∈ check_mode_tags ∧
  _check_mode "grid-reflect" = inr "grid-reflect" ∧
  _generate_boundary_condition_ops "grid-reflect" ix xsize int_t float_ix
    = None.
Proof.
  split; [| split].
  - unfold check_mode_tags. rewrite !elem_of_cons. auto 10.
  - reflexivity.
  - pick_branch. done.
Qed.

(** The tag [grid-constant], for which the resolver does have a branch, is
    refused by the mode check. *)
Lemma grid_constant_rule_unreachable ix xsize int_t float_ix :
  is_Some
    (_generate_boundary_condition_ops "grid-constant" ix xsize int_t float_ix)
  ∧ _check_mode "grid-constant" =
      inl (RuntimeError "boundary mode not supported (actual: grid-constant)").
Proof. split; [pick_branch; eauto | reflexivity]. Qed.

End Modes.

(** ** Origin check *)

Section Origin.

Lemma _check_origin_accepts origin width :
  _check_origin origin width = inr origin ↔
  0 <= width `div` 2 + origin < width.
Proof.
  unfold _check_origin.
  repeat case_bool_decide; cbn [orb]; split; intros; (done || lia).
Qed.

Lemma _check_origin_total origin width :
  _check_origin origin width = inr origin ∨
  _check_origin origin width = inl (ValueError "invalid origin").
Proof. unfold _check_origin. destruct (_ || _); auto. Qed.



End Origin.

(** ** Index-width selector *)

Section IntType.

Lemma sum_axis_spans extents strides :
  sum_Z ((λ p : Z * Z, (p.1 - 1) * Z.abs p.2) <$> zip extents strides)
  = axis_spans extents strides.
Proof.
  revert strides.
  induction extents as [| x extents IH]; intros [| s strides]; try done.
  cbn. by rewrite <- IH.
Qed.

(** C7: the selector answers [ptrdiff_t] exactly when the byte span
    [sum((extent_i - 1) * |stride_i|) + itemsize] exceeds [2^31 - 1] and [int]
    otherwise; a contiguous (2^20, 2^12) array of 8-byte elements gets
    [ptrdiff_t], a contiguous (10, 10) array of 4-byte elements gets [int]. *)
Theorem _get_inttype_by_span (a : ndarray) :
  (_get_inttype a = "ptrdiff_t" ↔ byte_span a > 2 ^ 31 - 1) ∧
  (_get_inttype a = "int" ↔ byte_span a <= 2 ^ 31 - 1) ∧
  (_get_inttype a = "int" ∨ _get_inttype a = "ptrdiff_t") ∧
  _get_inttype (contiguous [2 ^ 20; 2 ^ 12] 8) = "ptrdiff_t" ∧
  _get_inttype (contiguous [10; 10] 4) = "int".
Proof.
  unfold _get_inttype, byte_span. cbv zeta. rewrite sum_axis_spans.
  change (Z.shiftl 1 31) with 2147483648. change (2 ^ 31) with 2147483648.
  split; [| split; [| split; [| split; reflexivity]]].
  all: case_bool_decide; try (split; (done || lia)); auto.
Qed.

End IntType.

(** ** Axis check *)

Section Axes.

Lemma axis_out_of_range_spec ndim ax :
  axis_out_of_range ndim ax = false ↔ axis_in_range ndim ax.
Proof.
  unfold axis_out_of_range, axis_in_range.
  repeat case_bool_decide; cbn [orb]; split; intros; (done || lia).
Qed.

Lemma normalize_axis_range ndim ax :
  axis_in_range ndim ax →
  0 <= normalize_axis ndim ax < ndim ∧
  (ax < 0 → normalize_axis ndim ax = ax + ndim).
Proof.
  unfold axis_in_range, normalize_axis. intros Hr.
  case_bool_decide; [| lia].
  assert (ax `mod` ndim = ax + ndim) as ->; [| lia].
  symmetry. apply (Z.mod_unique_pos _ _ (-1)); lia.
Qed.

Lemma size_list_to_set_le (l : list Z) :
  (size (list_to_set l : gset Z) <= length l)%nat.
Proof.
  induction l as [| x l IH]; [done |].
  cbn [list_to_set foldr length]. rewrite size_union_alt, size_singleton.
  assert (size (list_to_set l ∖ {[x]} : gset Z) <= size (list_to_set l : gset Z))%nat
    by (apply subseteq_size; set_solver).
  lia.
Qed.

Lemma unique_or_raise_spec (l : list Z) :
  (NoDup l → unique_or_raise l = inr l) ∧
  (¬ NoDup l → unique_or_raise l = inl (ValueError "axes must be unique")).
Proof.
  unfold unique_or_raise. split.
  - intros Hnd. rewrite bool_decide_eq_false_2; [done |].
    intros Hne. by apply Hne, size_list_to_set.
  - intros Hd. rewrite bool_decide_eq_true_2; [done |].
    intros Heq. apply Hd. clear Hd.
    induction l as [| x l IH]; [constructor |].
    cbn [list_to_set length] in Heq.
    pose proof (size_list_to_set_le l) as Hle.
    destruct (decide (x ∈ l)) as [Hin | Hnin].
    + replace ({[x]} ∪ list_to_set l : gset Z) with (list_to_set l : gset Z)
        in Heq by set_solver.
      lia.
    + rewrite size_union, size_singleton in Heq by set_solver.
      constructor; [done |]. apply IH. lia.
Qed.

Lemma for_ax_in_container_ok ndim pending axes :
  Forall (axis_in_range ndim) pending →
  for_ax_in_container ndim pending axes = inr axes.
Proof.
  induction 1 as [| ax rest Hax _ IH]; [done |].
  cbn [for_ax_in_container].
  by apply axis_out_of_range_spec in Hax as ->.
Qed.

Lemma for_ax_in_container_raises ndim pending axes :
  ¬ Forall (axis_in_range ndim) pending →
  ∃ ax, ax ∈ pending ∧ ¬ axis_in_range ndim ax ∧
        for_ax_in_container ndim pending axes = inl (axis_error ax).
Proof.
  induction pending as [| ax rest IH]; intros Hn.
  - destruct Hn. constructor.
  - cbn [for_ax_in_container].
    destruct (axis_out_of_range ndim ax) eqn:Ho.
    + exists ax. split; [by left |]. split; [| done].
      intros Hr%axis_out_of_range_spec. congruence.
    + apply axis_out_of_range_spec in Ho.
      destruct IH as (ax' & Hin & Hr & Heq).
      { intros Hf. apply Hn. by constructor. }
      exists ax'. split; [by right | done].
Qed.

Lemma normalize_axes_fmap ndim axes :
  ndim ≠ 0 → normalize_axes ndim axes = inr (normalize_axis ndim <$> axes).
Proof.
  intros Hnz. induction axes as [| ax rest IH]; [done |].
  cbn [normalize_axes fmap list_fmap]. fold (normalize_axis ndim <$> rest).
  rewrite IH. unfold normalize_axis.
  case_bool_decide; [| done].
  by rewrite (bool_decide_eq_false_2 (ndim = 0)) by done.
Qed.

(** A container of integers is checked as the specification says. *)
Lemma _check_axes_container l ndim :
  0 < ndim →
  let t := normalize_axis ndim <$> l in
  (Forall (axis_in_range ndim) l → NoDup t →
   _check_axes (AxSeq l) ndim = inr t ∧ canonical_axes ndim t) ∧
  (Forall (axis_in_range ndim) l → ¬ NoDup t →
   _check_axes (AxSeq l) ndim = inl (ValueError "axes must be unique")) ∧
  (¬ Forall (axis_in_range ndim) l →
   ∃ ax, ax ∈ l ∧ ¬ axis_in_range ndim ax ∧
         _check_axes (AxSeq l) ndim = inl (axis_error ax)).
Proof.
  intros Hn t. cbn [_check_axes]. repeat split.
  - rewrite for_ax_in_container_ok, normalize_axes_fmap by (done || lia).
    by apply unique_or_raise_spec.
  - done.
  - subst t. apply Forall_fmap. eapply Forall_impl; [done |].
    intros ax Hr. cbn. by apply normalize_axis_range.
  - intros Hr Hd.
    rewrite for_ax_in_container_ok, normalize_axes_fmap by (done || lia).
    by apply unique_or_raise_spec.
  - intros Hr.
    destruct (for_ax_in_container_raises ndim l l Hr) as (ax & ? & ? & ->).
    eauto.
Qed.

Lemma _check_axes_none ndim :
  _check_axes AxNone ndim = inr (Z.of_nat <$> seq 0 (Z.to_nat ndim)) ∧
  canonical_axes ndim (Z.of_nat <$> seq 0 (Z.to_nat ndim)).
Proof.
  split; [done |]. split.
  - apply NoDup_fmap; [apply _ | apply NoDup_seq].
  - apply Forall_fmap, Forall_forall. intros j Hj%elem_of_seq. cbn. lia.
Qed.

(** C10 (failing input): an integer scalar is wrapped in a tuple as it is,
    neither range-checked nor normalized, so [-1] and [5] for [ndim = 2] come
    back as [(-1,)] and [(5,)], which are not tuples of indices in [0, 2). *)
Theorem _check_axes_scalar_unchecked :
  (∀ n ndim, _check_axes (AxScalar n) ndim = inr [n]) ∧
  _check_axes (AxScalar (-1)) 2 = inr [-1] ∧ ¬ canonical_axes 2 [-1] ∧
  _check_axes (AxScalar 5) 2 = inr [5] ∧ ¬ canonical_axes 2 [5].
Proof.
  assert (∀ n ndim, _check_axes (AxScalar n) ndim = inr [n]) as Hs.
  { intros n ndim. cbn [_check_axes].
    apply unique_or_raise_spec, NoDup_singleton. }
  split; [done |]. rewrite !Hs. unfold canonical_axes.
  repeat split; try done.
  all: intros [_ Hr]; apply Forall_inv in Hr; lia.
Qed.

(** A one-shot iterator loses its first item to the loop and has the others
    collected unchecked: [iter([0, 7])] for [ndim = 2] comes back as [(7,)]. *)
Lemma _check_axes_iterator_unchecked :
  _check_axes (AxIter [0; 7]) 2 = inr [7] ∧
  _check_axes (AxSeq [0; 7]) 2 = inl (axis_error 7).
Proof. split; reflexivity. Qed.

End Axes.

(** ** Multi-axis index decomposer *)

Lemma ind_inj j k : ind_ j = ind_ k → j = k.
Proof.
  unfold ind_. cbv [String.append]. intros [= H].
  by apply (inj pretty) in H.
Qed.

Lemma ind_ne_i j : ind_ j ≠ "_i".
Proof. unfold ind_. by cbv [String.append]. Qed.

Lemma i_ne_ind j : "_i" ≠ ind_ j.
Proof. unfold ind_. by cbv [String.append]. Qed.

Lemma ind_ne_ysize j k : ind_ j ≠ ysize_ k.
Proof. unfold ind_, ysize_. by cbv [String.append]. Qed.

Lemma i_ne_ysize j : "_i" ≠ ysize_ j.
Proof. unfold ysize_. by cbv [String.append]. Qed.

Lemma ind_ne j k : j ≠ k → ind_ j ≠ ind_ k.
Proof. intros Hne Heq%ind_inj. done. Qed.

Create HintDb names.
#[global] Hint Resolve ind_ne_i i_ne_ind ind_ne_ysize i_ne_ysize ind_ne : names.

Section Indices.

Context (int_type : string) (ysize offsets : list Z).

Local Notation lines := (indices_body int_type offsets).

Lemma lines_S n :
  lines (S n) = indices_line int_type (S n) (offsets !!! S n) :: lines n.
Proof. unfold indices_body. by rewrite seq_S, rev_unit. Qed.

Lemma body_lines n :
  (n < length offsets)%nat →
  mapM (λ j, indices_line int_type j <$> offsets !! j) (rev (seq 1 n))
  = Some (lines n).
Proof.
  intros Hn. apply mapM_Some, Forall2_fmap_r, Forall_Forall2_diag.
  apply Forall_forall. intros j Hj.
  apply list_elem_of_In, in_rev, in_seq in Hj.
  by rewrite list_lookup_lookup_total_lt by lia.
Qed.

Lemma exec_lines n : ∀ (m : env) (c : Z) (ind : list Z),
  m !! "_i" = Some c → 0 <= c →
  (∀ j, (1 <= j <= n)%nat →
        m !! ysize_ j = Some (ysize !!! j) ∧ 0 < ysize !!! j) →
  ∃ m' c' ind',
    decompose_loop n ysize offsets c ind = (c', ind') ∧
    exec 0 (seq_of (lines n)) m = Some m' ∧
    m' !! "_i" = Some c' ∧
    length ind' = length ind ∧
    (∀ k, (n < k)%nat → m' !! ind_ k = m !! ind_ k ∧ ind' !! k = ind !! k) ∧
    ind' !! 0%nat = ind !! 0%nat ∧
    (∀ k, (1 <= k <= n)%nat → (k < length ind)%nat →
          m' !! ind_ k = ind' !! k).
Proof.
  induction n as [| n IH]; intros m c ind Hc Hpos Hy.
  - exists m, c, ind. repeat split; try done. intros k Hk. lia.
  - destruct (Hy (S n)) as [HY HYpos]; [lia |].
    set (y := ysize !!! S n) in *.
    set (v := c `mod` y - offsets !!! S n).
    destruct (IH (<["_i" := c `div` y]> (<[ind_ (S n) := v]> m))
                 (c `div` y) (<[S n := v]> ind))
      as (m' & c' & ind' & Hloop & Hexec & Hi & Hlen & Hhigh & H0 & Hlow).
    { by rewrite lookup_insert_eq. }
    { apply Z.div_pos; lia. }
    { intros j Hj. destruct (Hy j) as [? ?]; [lia |]. split; [| done].
      by rewrite !lookup_insert_ne by auto with names. }
    exists m', c', ind'. split; [exact Hloop |].
    split; [| split; [done | split; [| split; [| split]]]].
    + rewrite lines_S.
      cbn [seq_of exec indices_line eval mbind option_bind arith].
      repeat (first
        [ rewrite Hc | rewrite HY
        | rewrite lookup_insert_ne by auto with names
        | rewrite (decide_False (P := y = 0)) by lia ];
        fold y; cbn [mbind option_bind arith]).
      rewrite Z.rem_mod_nonneg, Z.quot_div_nonneg by lia.
      exact Hexec.
    + by rewrite Hlen, length_insert.
    + intros k Hk. destruct (Hhigh k) as [-> ->]; [lia |].
      rewrite !lookup_insert_ne by first [apply ind_ne; lia | auto with names].
      by rewrite list_lookup_insert_ne by lia.
    + rewrite H0. by rewrite list_lookup_insert_ne by lia.
    + intros k Hk Hlt. destruct (decide (k = S n)) as [-> | Hne].
      * destruct (Hhigh (S n)) as [-> ->]; [lia |].
        rewrite lookup_insert_ne by auto with names.
        by rewrite lookup_insert_eq, list_lookup_insert_eq by done.
      * apply Hlow; [lia |]. by rewrite length_insert.
Qed.

End Indices.

Section Decomposer.

Lemma mapM_seq_lookup (f : nat → option Z) (l : list Z) : ∀ a,
  (∀ k, (k < length l)%nat → f (a + k)%nat = l !! k) →
  mapM f (seq a (length l)) = Some l.
Proof.
  induction l as [| x l IH]; intros a Hf; [done |].
  cbn [length seq mapM].
  rewrite <- (Nat.add_0_r a) at 1. rewrite (Hf 0%nat) by (cbn; lia).
  cbn [lookup list_lookup mbind option_bind].
  rewrite IH; [done |].
  intros k Hk. replace (S a + k)%nat with (a + S k)%nat by lia.
  apply (Hf (S k)). cbn. lia.
Qed.

(** The fragment in any kernel state that holds the flat index and the
    window extents. *)
Lemma decompose_in_env ndim int_type ysize offsets (m : env) i :
  (0 < ndim)%nat → length offsets = ndim →
  0 <= i → m !! "i" = Some i →
  (∀ j, (1 <= j < ndim)%nat →
        m !! ysize_ j = Some (ysize !!! j) ∧ 0 < ysize !!! j) →
  decompose ndim int_type offsets m
  = Some (decompose_spec ndim ysize offsets i).
Proof.
  intros Hn Hlen Hi Hm Hy. unfold decompose, _generate_indices_ops.
  rewrite body_lines by lia.
  rewrite (list_lookup_lookup_total_lt offsets 0) by lia.
  cbn [mbind option_bind exec eval]. rewrite Hm. cbn [mbind option_bind].
  destruct (exec_lines int_type ysize offsets (ndim - 1)
              (<["_i" := i]> m) i (replicate ndim 0))
    as (m' & c' & ind' & Hloop & Hexec & Hc' & Hlen' & _ & _ & Hlow).
  { by rewrite lookup_insert_eq. }
  { done. }
  { intros j Hj. rewrite lookup_insert_ne by auto with names.
    apply Hy. lia. }
  rewrite Hexec. cbn [mbind option_bind]. rewrite Hc'.
  cbn [mbind option_bind arith]. unfold decompose_spec. rewrite Hloop.
  rewrite length_replicate in Hlen'.
  set (v := c' - offsets !!! 0%nat).
  assert (length (<[0%nat := v]> ind') = ndim) as Hl
    by by rewrite length_insert.
  rewrite <- Hl. apply mapM_seq_lookup. rewrite Hl.
  intros [| k] Hk; cbn [Nat.add].
  - by rewrite lookup_insert_eq, list_lookup_insert_eq by lia.
  - rewrite lookup_insert_ne by (apply ind_ne; lia).
    rewrite list_lookup_insert_ne by lia.
    apply Hlow; [lia |]. by rewrite length_replicate.
Qed.

Lemma ysize_inj j k : ysize_ j = ysize_ k → j = k.
Proof.
  unfold ysize_. cbv [String.append]. intros [= H].
  by apply (inj pretty) in H.
Qed.

Lemma ysize_ne_flat j : ysize_ j ≠ "i".
Proof. unfold ysize_. by cbv [String.append]. Qed.

Lemma bind_ysize_other ysize : ∀ j (m : env) x,
  (∀ k, x ≠ ysize_ k) → bind_ysize j ysize m !! x = m !! x.
Proof.
  induction ysize as [| y rest IH]; intros j m x Hx; [done |].
  cbn [bind_ysize]. rewrite lookup_insert_ne by (intros Heq; by eapply Hx).
  by apply IH.
Qed.

Lemma bind_ysize_lookup ysize : ∀ j (m : env) k,
  (k < length ysize)%nat →
  bind_ysize j ysize m !! ysize_ (j + k) = ysize !! k.
Proof.
  induction ysize as [| y rest IH]; intros j m k Hk; [cbn in Hk; lia |].
  cbn [bind_ysize]. destruct k as [| k].
  - rewrite Nat.add_0_r. by rewrite lookup_insert_eq.
  - rewrite lookup_insert_ne by (intros Heq%ysize_inj; lia).
    replace (j + S k)%nat with (S j + k)%nat by lia.
    apply IH. cbn in Hk. lia.
Qed.

(** C8: on a non-negative flat index the fragment computes the mixed-radix
    decomposition from the last axis to the first: for [j] from [ndim - 1]
    down to 1, [ind_j = i mod ysize_j - offset_j] and [i] becomes
    [i div ysize_j]; then [ind_0 = i - offset_0], without a modulo.  Index 4
    of a 3 by 3 window with offsets (1, 1) decomposes to (0, 0). *)
Theorem decompose_mixed_radix ndim int_type ysize offsets i :
  (0 < ndim)%nat → length ysize = ndim → length offsets = ndim →
  0 <= i → (∀ j, (1 <= j < ndim)%nat → 0 < ysize !!! j) →
  decompose ndim int_type offsets (window_env i ysize)
  = Some (decompose_spec ndim ysize offsets i) ∧
  decompose 2 int_type [1; 1] (window_env 4 [3; 3]) = Some [0; 0].
Proof.
  intros Hn Hly Hlo Hi Hpos. split; [| by vm_compute].
  apply decompose_in_env; try done.
  - unfold window_env.
    rewrite bind_ysize_other by (intros k Heq; by apply (ysize_ne_flat k)).
    by rewrite lookup_insert_eq.
  - intros j Hj. split; [| by apply Hpos].
    unfold window_env.
    rewrite (bind_ysize_lookup ysize 0 _ j) by lia.
    apply list_lookup_lookup_total_lt. lia.
Qed.

(** For two and three axes the decomposition reads as follows. *)
Lemma decompose_spec_two_axes y0 y1 o0 o1 i :
  decompose_spec 2 [y0; y1] [o0; o1] i
  = [i `div` y1 - o0; i `mod` y1 - o1].
Proof. reflexivity. Qed.

Lemma decompose_spec_three_axes y0 y1 y2 o0 o1 o2 i :
  decompose_spec 3 [y0; y1; y2] [o0; o1; o2] i
  = [i `div` y2 `div` y1 - o0; (i `div` y2) `mod` y1 - o1; i `mod` y2 - o2].
Proof. reflexivity. Qed.

End Decomposer.

Lemma decompose_mixed_radix_witness :
  decompose 3 "ptrdiff_t" [1; 0; 2] (window_env 23 [2; 3; 4])
  = Some (decompose_spec 3 [2; 3; 4] [1; 0; 2] 23).
Proof.
  apply (decompose_mixed_radix 3 "ptrdiff_t" [2; 3; 4] [1; 0; 2] 23);
    [lia | reflexivity | reflexivity | lia |].
  intros [| [| [| j]]] Hj; [lia | reflexivity | reflexivity | lia].
Defined.

(** ** Further properties of the resolver *)

Section ResolverMore.










End ResolverMore.

Section ResolverModes.

Context (fuel : nat) (int_t : string).

(** X3: the nearest mode clamps: it is the identity on the axis, 0 below it
    and [xsize - 1] above it, and it never reverses the order of two
    coordinates. *)
Theorem nearest_clamps_monotone ix ix' xs :
  0 < xs → ix <= ix' →
  ∃ r r', resolve fuel "nearest" int_t ix xs = Some r ∧
          resolve fuel "nearest" int_t ix' xs = Some r' ∧
          r <= r' ∧
          (ix < 0 → r = 0) ∧ (xs <= ix → r = xs - 1).
Proof.
  intros Hx Hle. rewrite !resolve_nearest.
  eexists _, _. split; [done |]. split; [done |].
  unfold nearest_val. lia.
Qed.

(** X4: under the two constant modes the result is the sentinel exactly when
    the coordinate is off the axis, and the coordinate itself otherwise; no
    folding takes place. *)
Theorem constant_sentinel_iff mode ix xs :
  mode ∈ ["constant"; "grid-constant"] →
  ∃ r, resolve fuel mode int_t ix xs = Some r ∧
       (r = SENTINEL ↔ ix < 0 ∨ xs <= ix) ∧
       (0 <= ix < xs → r = ix).
Proof.
  intros Hm. rewrite resolve_constant by done. eexists. split; [done |].
  unfold constant_val, SENTINEL.
  destruct (Z.ltb_spec ix 0), (Z.geb_spec ix xs); cbn [orb]; lia.
Qed.

(** X5: reflect and grid-mirror are symmetric about the outer edge of the
    first sample: the coordinates [ix] and [-1 - ix] resolve alike. *)
Theorem reflect_symmetric mode ix xs :
  mode ∈ ["reflect"; "grid-mirror"] → 0 < xs →
  resolve fuel mode int_t (-1 - ix) xs = resolve fuel mode int_t ix xs.
Proof.
  intros Hm Hx. rewrite !resolve_reflect by (done || lia). f_equal.
  unfold reflect_val. cbv zeta.
  destruct (Z.ltb_spec ix 0), (Z.ltb_spec (-1 - ix) 0); try lia.
  all: by replace (-1 - (-1 - ix)) with ix by lia.
Qed.



(** X7: on an axis longer than 1 the wrap mode moves a coordinate by a
    multiple of [xsize - 1] and lands on the axis. *)
Theorem wrap_congruent ix xs :
  1 < xs →
  ∃ r k, resolve fuel "wrap" int_t ix xs = Some r ∧
         r = ix + k * (xs - 1) ∧ 0 <= r <= xs - 1.
Proof.
  intros Hx. rewrite resolve_wrap by lia.
  pose proof (wrap_val_range ix xs Hx) as Hr.
  exists (wrap_val ix xs). unfold wrap_val in *.
  destruct (ix <? 0); [| destruct (ix >? xs - 1)].
  - exists ((- ix) ÷ (xs - 1) + 1). split; [done | lia].
  - exists (- (ix ÷ (xs - 1))). split; [done | lia].
  - exists 0. split; [done | lia].
Qed.

End ResolverModes.

(** X8: the generator emits a fragment exactly for the eight modes
    reflect, grid-mirror, mirror, nearest, grid-wrap, wrap, constant and
    grid-constant, whatever its other arguments; for any other tag nothing is
    bound to return. *)
Theorem generator_defined_iff mode ix xsize int_t float_ix :
  is_Some (_generate_boundary_condition_ops mode ix xsize int_t float_ix)
  ↔ mode ∈ resolver_modes.
Proof.
  rewrite mode_in_resolver_modes. unfold _generate_boundary_condition_ops.
  cbv zeta. repeat case_bool_decide.
  all: split; [intros Hs | intros Hm]; try (by eauto 10).
  destruct Hm as [? | [? | [? | [? | [? | ?]]]]]; done.
Qed.



Lemma nearest_clamps_monotone_witness :
  ∃ r r', resolve 0 "nearest" "ptrdiff_t" (-100) 4 = Some r ∧
          resolve 0 "nearest" "ptrdiff_t" 100 4 = Some r' ∧
          r <= r' ∧ (-100 < 0 → r = 0) ∧ (4 <= -100 → r = 4 - 1).
Proof. apply (nearest_clamps_monotone 0 "ptrdiff_t" (-100) 100 4); lia. Defined.

Lemma constant_sentinel_iff_witness :
  ∃ r, resolve 0 "constant" "int" 5 5 = Some r ∧
       (r = SENTINEL ↔ 5 < 0 ∨ 5 <= 5) ∧ (0 <= 5 < 5 → r = 5).
Proof.
  apply (constant_sentinel_iff 0 "int" "constant" 5 5).
  apply elem_of_pair. by left.
Defined.

Lemma reflect_symmetric_witness :
  resolve 0 "reflect" "int" (-1 - 7) 3 = resolve 0 "reflect" "int" 7 3.
Proof.
  apply (reflect_symmetric 0 "int" "reflect" 7 3); [| lia].
  apply elem_of_pair. by left.
Defined.


Lemma wrap_congruent_witness :
  ∃ r k, resolve 0 "wrap" "int" (-9) 5 = Some r ∧
         r = -9 + k * (5 - 1) ∧ 0 <= r <= 5 - 1.
Proof. apply (wrap_congruent 0 "int" (-9) 5). lia. Defined.


(** ** Further properties of the parameter checks *)

Section ChecksMore.

(** X9: a window of positive width always accepts the origin 0, and a window
    of width 0 or less accepts no origin at all. *)
Theorem _check_origin_zero_and_empty width :
  (0 < width → _check_origin 0 width = inr 0) ∧
  (width <= 0 →
   ∀ origin, _check_origin origin width = inl (ValueError "invalid origin")).
Proof.
  split.
  - intros Hw. apply _check_origin_accepts.
    pose proof (Z.div_pos width 2). pose proof (Z.div_lt width 2). lia.
  - intros Hw origin.
    destruct (_check_origin_total origin width) as [Ha | Hr]; [| done].
    apply _check_origin_accepts in Ha. lia.
Qed.

(** The accepted origins are those that put the window centre
    [width // 2 + origin] on one of the [width] positions of the window. *)
Lemma _check_origin_positions origin width :
  _check_origin origin width = inr origin ↔
  ∃ p, 0 <= p < width ∧ origin = p - width `div` 2.
Proof.
  rewrite _check_origin_accepts. split.
  - intros H. exists (width `div` 2 + origin). lia.
  - intros (p & Hp & ->). lia.
Qed.

(** X10: a list or tuple of integers is checked item by item: when all lie
    in [-ndim, ndim) and are distinct after normalization, the normalized
    tuple is returned, with every index in [0, ndim) and none repeated;
    when all lie in range but two coincide, [ValueError]; when one is out of
    range, the axis error names an item that is, whether or not items
    repeat. *)
Theorem _check_axes_list_checked l ndim :
  0 < ndim →
  let t := normalize_axis ndim <$> l in
  (Forall (axis_in_range ndim) l → NoDup t →
   _check_axes (AxSeq l) ndim = inr t ∧ canonical_axes ndim t) ∧
  (Forall (axis_in_range ndim) l → ¬ NoDup t →
   _check_axes (AxSeq l) ndim = inl (ValueError "axes must be unique")) ∧
  (¬ Forall (axis_in_range ndim) l →
   ∃ ax, ax ∈ l ∧ ¬ axis_in_range ndim ax ∧
         _check_axes (AxSeq l) ndim = inl (axis_error ax)).
Proof. apply _check_axes_container. Qed.

Lemma canonical_axes_fixed ndim t :
  0 < ndim → canonical_axes ndim t → _check_axes (AxSeq t) ndim = inr t.
Proof.
  intros Hn [Hnd Hr].
  assert (normalize_axis ndim <$> t = t) as Hid.
  { clear Hnd. induction Hr as [| ax t Hax _ IH]; [done |].
    cbn [fmap list_fmap]. fold (normalize_axis ndim <$> t). rewrite IH.
    unfold normalize_axis. by rewrite bool_decide_eq_false_2 by lia. }
  destruct (_check_axes_container t ndim Hn) as (Hok & _ & _).
  rewrite Hid in Hok. apply Hok; [| done].
  eapply Forall_impl; [done |]. unfold axis_in_range. cbn. lia.
Qed.

Lemma _check_axes_container_canonical l ndim t :
  0 < ndim → _check_axes (AxSeq l) ndim = inr t →
  t = normalize_axis ndim <$> l ∧ canonical_axes ndim t ∧
  Forall (axis_in_range ndim) l.
Proof.
  intros Hn Hres.
  destruct (_check_axes_container l ndim Hn) as (Hok & Hdup & Hbad).
  destruct (decide (Forall (axis_in_range ndim) l)) as [Hr | Hr].
  - destruct (decide (NoDup (normalize_axis ndim <$> l))) as [Hnd | Hnd].
    + destruct (Hok Hr Hnd) as [Heq Hc]. rewrite Heq in Hres.
      by injection Hres as <-.
    + rewrite (Hdup Hr Hnd) in Hres. done.
  - destruct (Hbad Hr) as (ax & _ & _ & Heq). rewrite Heq in Hres. done.
Qed.

(** X11: what [_check_axes] returns for a list or tuple it accepts again
    unchanged: checking is idempotent. *)
Theorem _check_axes_idempotent l ndim t :
  0 < ndim → _check_axes (AxSeq l) ndim = inr t →
  _check_axes (AxSeq t) ndim = inr t.
Proof.
  intros Hn Hres. apply canonical_axes_fixed; [done |].
  by eapply _check_axes_container_canonical.
Qed.

(** X12: a list or tuple that is accepted keeps its length, and never names
    more than [ndim] axes. *)
Theorem _check_axes_length l ndim t :
  0 < ndim → _check_axes (AxSeq l) ndim = inr t →
  length t = length l ∧ (Z.of_nat (length t) <= ndim).
Proof.
  intros Hn Hres.
  destruct (_check_axes_container_canonical l ndim t Hn Hres)
    as (-> & [Hnd Hr] & _).
  split; [by rewrite length_fmap |].
  set (t := normalize_axis ndim <$> l) in *.
  assert (length (Z.to_nat <$> t) <= length (seq 0 (Z.to_nat ndim)))%nat as Hle.
  { apply submseteq_length, NoDup_submseteq.
    - apply NoDup_fmap_2_strong; [| done].
      intros x y Hx Hy Heq.
      rewrite Forall_forall in Hr. pose proof (Hr x Hx).
      pose proof (Hr y Hy). lia.
    - intros n (x & -> & Hx)%list_elem_of_fmap.
      rewrite Forall_forall in Hr. specialize (Hr x Hx).
      apply elem_of_seq. lia. }
  rewrite length_fmap, length_seq in Hle. lia.
Qed.

(** X13: [None] and the explicit tuple of all axes are checked to the same
    result. *)
Theorem _check_axes_none_explicit ndim :
  0 < ndim →
  _check_axes (AxSeq (Z.of_nat <$> seq 0 (Z.to_nat ndim))) ndim
  = _check_axes AxNone ndim.
Proof.
  intros Hn. destruct (_check_axes_none ndim) as [-> Hc].
  by apply canonical_axes_fixed.
Qed.

(** X14: of a one-shot iterator whose first item is in range, that item is
    dropped and the others are returned normalized but not range-checked. *)
Theorem _check_axes_iterator_drops_first ax rest ndim :
  0 < ndim → axis_in_range ndim ax →
  NoDup (normalize_axis ndim <$> rest) →
  _check_axes (AxIter (ax :: rest)) ndim
  = inr (normalize_axis ndim <$> rest).
Proof.
  intros Hn Hax Hnd. cbn [_check_axes for_ax_in_iterator].
  apply axis_out_of_range_spec in Hax as ->.
  rewrite normalize_axes_fmap by lia. by apply unique_or_raise_spec.
Qed.

End ChecksMore.

Lemma _check_axes_idempotent_witness :
  _check_axes (AxSeq [1; 0]) 2 = inr [1; 0].
Proof.
  apply (_check_axes_idempotent [-1; 0] 2 [1; 0]); [lia | reflexivity].
Defined.

Lemma _check_axes_length_witness :
  length [1; 0] = length [-1; 0] ∧ Z.of_nat (length [1; 0]) <= 2.
Proof.
  apply (_check_axes_length [-1; 0] 2 [1; 0]); [lia | reflexivity].
Defined.

Lemma _check_axes_none_explicit_witness :
  _check_axes (AxSeq (Z.of_nat <$> seq 0 (Z.to_nat 3))) 3
  = _check_axes AxNone 3.
Proof. apply (_check_axes_none_explicit 3). lia. Defined.

Lemma _check_axes_iterator_drops_first_witness :
  _check_axes (AxIter [0; 7; -9]) 2 = inr (normalize_axis 2 <$> [7; -9]).
Proof.
  apply (_check_axes_iterator_drops_first 0 [7; -9] 2).
  - lia.
  - unfold axis_in_range. lia.
  - vm_compute. repeat constructor; set_solver.
Defined.

Lemma _check_axes_list_checked_witness :
  let t := normalize_axis 3 <$> [-1; 0] in
  (Forall (axis_in_range 3) [-1; 0] → NoDup t →
   _check_axes (AxSeq [-1; 0]) 3 = inr t ∧ canonical_axes 3 t) ∧
  (Forall (axis_in_range 3) [-1; 0] → ¬ NoDup t →
   _check_axes (AxSeq [-1; 0]) 3 = inl (ValueError "axes must be unique")) ∧
  (¬ Forall (axis_in_range 3) [-1; 0] →
   ∃ ax, ax ∈ [-1; 0] ∧ ¬ axis_in_range 3 ax ∧
         _check_axes (AxSeq [-1; 0]) 3 = inl (axis_error ax)).
Proof. apply (_check_axes_list_checked [-1; 0] 3). lia. Defined.

(** ** Further properties of the index-width selector *)

Section IntTypeMore.

Lemma axis_spans_abs extents : ∀ strides strides',
  Forall2 (λ s s', Z.abs s = Z.abs s') strides strides' →
  axis_spans extents strides = axis_spans extents strides'.
Proof.
  induction extents as [| x extents IH]; intros strides strides' Hs; [done |].
  destruct Hs as [| s s' strides strides' Heq Hs]; [done |].
  cbn [axis_spans]. by rewrite Heq, (IH _ _ Hs).
Qed.

Lemma _get_inttype_span a :
  _get_inttype a =
    if bool_decide (byte_span a < 2 ^ 31) then "int" else "ptrdiff_t".
Proof.
  unfold _get_inttype, byte_span. cbv zeta. by rewrite sum_axis_spans.
Qed.

(** X15: only the magnitude of the strides counts: an array and any view of
    it with some strides negated (a reversed axis) get the same index
    type. *)
Theorem _get_inttype_stride_sign a strides' :
  Forall2 (λ s s', Z.abs s = Z.abs s') (strides a) strides' →
  _get_inttype
    {| shape := shape a; strides := strides'; itemsize := itemsize a |}
  = _get_inttype a.
Proof.
  intros Hs. rewrite !_get_inttype_span. unfold byte_span. cbn.
  by rewrite (axis_spans_abs _ _ _ Hs).
Qed.

Lemma axis_spans_mono strides : ∀ extents extents',
  Forall2 Z.le extents extents' →
  axis_spans extents strides <= axis_spans extents' strides.
Proof.
  induction strides as [| s strides IH]; intros extents extents' Hle.
  - destruct Hle; cbn; lia.
  - destruct Hle as [| x x' extents extents' Hx Hle]; [done |].
    cbn [axis_spans]. specialize (IH _ _ Hle). nia.
Qed.

(** X16: with the strides and the element size fixed, shrinking extents
    never widens the index type: if the larger array is addressed with [int],
    so is the smaller one. *)
Theorem _get_inttype_monotone a extents :
  Forall2 Z.le extents (shape a) →
  _get_inttype a = "int" →
  _get_inttype
    {| shape := extents; strides := strides a; itemsize := itemsize a |}
  = "int".
Proof.
  intros Hle. rewrite !_get_inttype_span. unfold byte_span. cbn.
  pose proof (axis_spans_mono (strides a) _ _ Hle).
  repeat case_bool_decide; (done || lia).
Qed.

Lemma contiguous_span shape itemsize :
  Forall (λ x, 1 <= x) shape → 0 <= itemsize →
  axis_spans shape (contiguous_strides shape itemsize) + itemsize
  = itemsize * foldr Z.mul 1 shape ∧ 1 <= foldr Z.mul 1 shape.
Proof.
  intros Hs Hi. induction Hs as [| x rest Hx _ [IH Hp]]; [cbn; lia |].
  cbn [axis_spans contiguous_strides foldr].
  rewrite Z.abs_eq by nia. split; nia.
Qed.

(** X17: for a contiguous array without empty axes the byte span is the
    number of bytes of the array, so [int] is chosen exactly when
    [itemsize * prod(shape) < 2^31]. *)
Theorem _get_inttype_contiguous shape itemsize :
  Forall (λ x, 1 <= x) shape → 0 <= itemsize →
  byte_span (contiguous shape itemsize) = itemsize * foldr Z.mul 1 shape ∧
  (_get_inttype (contiguous shape itemsize) = "int" ↔
   itemsize * foldr Z.mul 1 shape < 2 ^ 31).
Proof.
  intros Hs Hi. destruct (contiguous_span shape itemsize Hs Hi) as [Hspan _].
  assert (byte_span (contiguous shape itemsize)
          = itemsize * foldr Z.mul 1 shape) as Hb by exact Hspan.
  split; [done |]. rewrite _get_inttype_span, Hb.
  case_bool_decide; split; (done || lia).
Qed.

End IntTypeMore.

Lemma _get_inttype_stride_sign_witness :
  _get_inttype {| shape := [10; 10]; strides := [-40; 4]; itemsize := 4 |}
  = _get_inttype (contiguous [10; 10] 4).
Proof.
  apply (_get_inttype_stride_sign (contiguous [10; 10] 4) [-40; 4]).
  repeat constructor.
Defined.

Lemma _get_inttype_monotone_witness :
  _get_inttype {| shape := [3; 10]; strides := [40; 4]; itemsize := 4 |}
  = "int".
Proof.
  apply (_get_inttype_monotone (contiguous [10; 10] 4) [3; 10]);
    [| reflexivity].
  repeat constructor; cbn; lia.
Defined.

Lemma _get_inttype_contiguous_witness :
  byte_span (contiguous [2 ^ 20; 2 ^ 12] 8)
    = 8 * foldr Z.mul 1 [2 ^ 20; 2 ^ 12] ∧
  (_get_inttype (contiguous [2 ^ 20; 2 ^ 12] 8) = "int" ↔
   8 * foldr Z.mul 1 [2 ^ 20; 2 ^ 12] < 2 ^ 31).
Proof.
  apply (_get_inttype_contiguous [2 ^ 20; 2 ^ 12] 8); [| lia].
  repeat constructor; lia.
Defined.

(** ** Further properties of the index decomposer *)

Section DecomposerMore.

(** X18: the generator succeeds exactly when [offsets] has an entry for
    every axis it names, that is, for [max(ndim, 1)] axes: [offsets[0]] is
    read even for [ndim = 0]. *)
Theorem _generate_indices_ops_defined ndim int_type offsets :
  is_Some (_generate_indices_ops ndim int_type offsets)
  ↔ (Nat.max ndim 1 <= length offsets)%nat.
Proof.
  unfold _generate_indices_ops. split.
  - intros [ops Hops].
    destruct (mapM _ _) as [body |] eqn:Hbody; [| done].
    cbn [mbind option_bind] in Hops.
    destruct (offsets !! 0%nat) as [o0 |] eqn:H0; [| done].
    apply lookup_lt_Some in H0.
    destruct (decide (ndim <= 1)%nat) as [| Hbig]; [lia |].
    assert (is_Some (mapM (λ j, indices_line int_type j <$> offsets !! j)
                          (rev (seq 1 (ndim - 1))))) as Hsome by eauto.
    apply mapM_is_Some in Hsome. rewrite Forall_forall in Hsome.
    destruct (Hsome (ndim - 1)%nat) as [line Hline].
    { apply list_elem_of_In. apply -> in_rev. apply in_seq. lia. }
    cbn in Hline. destruct (offsets !! (ndim - 1)%nat) eqn:Hl; [| done].
    apply lookup_lt_Some in Hl. lia.
  - intros Hlen. rewrite body_lines by lia.
    rewrite (list_lookup_lookup_total_lt offsets 0) by lia.
    cbn [mbind option_bind]. eauto.
Qed.

Context (ysize offsets : list Z).

Lemma decompose_loop_frame n : ∀ c ind c' ind',
  decompose_loop n ysize offsets c ind = (c', ind') →
  length ind' = length ind ∧
  ∀ k, (n < k)%nat ∨ k = 0%nat → ind' !! k = ind !! k.
Proof.
  induction n as [| n IH]; intros c ind c' ind' Hloop.
  - by injection Hloop as <- <-.
  - cbn [decompose_loop] in Hloop. apply IH in Hloop as [Hlen Hk].
    rewrite length_insert in Hlen. split; [done |].
    intros k Hcase. rewrite Hk by lia.
    apply list_lookup_insert_ne. lia.
Qed.

Lemma decompose_loop_ravel n : ∀ c ind c' ind' coords,
  (n < length ind)%nat →
  (∀ j, (1 <= j <= n)%nat → 0 < ysize !!! j) →
  decompose_loop n ysize offsets c ind = (c', ind') →
  coords !!! 0%nat = c' →
  (∀ k, (1 <= k <= n)%nat → coords !!! k = ind' !!! k + offsets !!! k) →
  ravel n ysize coords = c ∧
  ∀ k, (1 <= k <= n)%nat → 0 <= coords !!! k < ysize !!! k.
Proof.
  induction n as [| n IH]; intros c ind c' ind' coords Hn Hy Hloop H0 Hk.
  - injection Hloop as <- <-. split; [done |]. intros k ?. lia.
  - cbn [decompose_loop] in Hloop.
    pose proof (decompose_loop_frame _ _ _ _ _ Hloop) as [Hlen Hfr].
    destruct (IH (c `div` (ysize !!! S n))
                 (<[S n := c `mod` (ysize !!! S n) - offsets !!! S n]> ind)
                 c' ind' coords) as [Hrav Hdig];
      [ rewrite length_insert; lia | intros; apply Hy; lia | exact Hloop
      | exact H0 | intros; apply Hk; lia |].
    assert (coords !!! S n = c `mod` (ysize !!! S n)) as Hlast.
    { rewrite Hk by lia.
      rewrite (list_lookup_total_correct ind' (S n)
                 (c `mod` (ysize !!! S n) - offsets !!! S n)); [lia |].
      rewrite Hfr by lia. by apply list_lookup_insert_eq. }
    pose proof (Hy (S n) ltac:(lia)) as Hpos.
    split.
    + cbn [ravel]. rewrite Hrav, Hlast.
      pose proof (Z_div_mod_eq_full c (ysize !!! S n)). lia.
    + intros k Hle. destruct (decide (k = S n)) as [-> | Hne].
      * rewrite Hlast. by apply Z.mod_pos_bound.
      * apply Hdig. lia.
Qed.

End DecomposerMore.

Lemma window_env_lookups i ysize :
  window_env i ysize !! "i" = Some i ∧
  ∀ j, (j < length ysize)%nat →
       window_env i ysize !! ysize_ j = Some (ysize !!! j).
Proof.
  unfold window_env. split.
  - rewrite bind_ysize_other by (intros k Heq; by apply (ysize_ne_flat k)).
    by rewrite lookup_insert_eq.
  - intros j Hj. rewrite (bind_ysize_lookup ysize 0 _ j) by lia.
    apply list_lookup_lookup_total_lt. lia.
Qed.

(** X19: decomposition inverts row-major flattening.  The coordinates the
    fragment computes, with the offsets added back, flatten to the index it
    started from, and on every axis but the first they lie within the window
    extent. *)
Theorem decompose_round_trip ndim int_type ysize offsets i inds :
  (0 < ndim)%nat → length ysize = ndim → length offsets = ndim →
  0 <= i → (∀ j, (1 <= j < ndim)%nat → 0 < ysize !!! j) →
  decompose ndim int_type offsets (window_env i ysize) = Some inds →
  ravel (ndim - 1) ysize (zip_with Z.add inds offsets) = i ∧
  ∀ j, (1 <= j < ndim)%nat →
       0 <= inds !!! j + offsets !!! j < ysize !!! j.
Proof.
  intros Hn Hly Hlo Hi Hpos Hrun.
  destruct (window_env_lookups i ysize) as [Hflat Hys].
  rewrite (decompose_in_env ndim int_type ysize offsets _ i) in Hrun;
    [| done | done | done | done |].
  2:{ intros j Hj. split; [apply Hys; lia | by apply Hpos]. }
  injection Hrun as <-. unfold decompose_spec.
  destruct (decompose_loop (ndim - 1) ysize offsets i (replicate ndim 0))
    as [c' ind'] eqn:Hloop.
  pose proof (decompose_loop_frame _ _ _ _ _ _ _ Hloop) as [Hlen _].
  rewrite length_replicate in Hlen.
  set (inds := <[0%nat := c' - offsets !!! 0%nat]> ind').
  assert (∀ k, (k < ndim)%nat →
            zip_with Z.add inds offsets !!! k = inds !!! k + offsets !!! k)
    as Hzip.
  { intros k Hk. apply list_lookup_total_correct.
    rewrite lookup_zip_with.
    rewrite (list_lookup_lookup_total_lt inds k)
      by (subst inds; rewrite length_insert; lia).
    by rewrite (list_lookup_lookup_total_lt offsets k) by lia. }
  assert (∀ k, (1 <= k < ndim)%nat → inds !!! k = ind' !!! k) as Hother.
  { intros k Hk. subst inds.
    by rewrite list_lookup_total_insert_ne by lia. }
  destruct (decompose_loop_ravel ysize offsets (ndim - 1) i
              (replicate ndim 0) c' ind' (zip_with Z.add inds offsets))
    as [Hrav Hdig].
  - rewrite length_replicate. lia.
  - intros j Hj. apply Hpos. lia.
  - done.
  - rewrite Hzip by lia. subst inds.
    rewrite list_lookup_total_insert_eq by lia. lia.
  - intros k Hk. rewrite Hzip, Hother by lia. done.
  - split; [done |]. intros j Hj.
    specialize (Hdig j ltac:(lia)). by rewrite Hzip in Hdig by lia.
Qed.

Lemma decompose_round_trip_witness :
  ravel (3 - 1) [2; 3; 4] (zip_with Z.add [0; 2; 1] [1; 0; 2]) = 23 ∧
  ∀ j, (1 <= j < 3)%nat →
       0 <= [0; 2; 1] !!! j + [1; 0; 2] !!! j < [2; 3; 4] !!! j.
Proof.
  apply (decompose_round_trip 3 "int" [2; 3; 4] [1; 0; 2] 23 [0; 2; 1]);
    [lia | reflexivity | reflexivity | lia | | by vm_compute].
  intros [| [| [| j]]] Hj; [lia | reflexivity | reflexivity | lia].
Defined.

(** ** Per-axis arguments *)

Section SequenceArg.

Context {V B : Type} (conv : V → exn + B).

Lemma convert_items_ok (l : list V) lst :
  convert_items conv l = inr lst →
  Forall2 (λ x y, conv x = inr y) l lst.
Proof.
  revert lst. induction l as [| x l IH]; intros lst Hc; cbn in Hc.
  - injection Hc as <-. constructor.
  - destruct (conv x) as [e | y] eqn:Hx; [done |].
    destruct (convert_items conv l) as [e | ys]; [done |].
    injection Hc as <-. constructor; [done | by apply IH].
Qed.

Lemma convert_items_raises (l1 l2 : list V) x e ys :
  Forall2 (λ x y, conv x = inr y) l1 ys → conv x = inl e →
  convert_items conv (l1 ++ x :: l2) = inl e.
Proof.
  intros Hok Hx. induction Hok as [| x1 y1 l1 ys Hx1 _ IH]; cbn.
  - by rewrite Hx.
  - by rewrite Hx1, IH.
Qed.

Lemma _fix_sequence_arg_items arg ndim name lst :
  0 <= ndim →
  _fix_sequence_arg arg ndim name conv = inr lst →
  Z.of_nat (length lst) = ndim ∧
  match arg with
  | ArgStr v | ArgAtom v => ∃ y, conv v = inr y ∧ Forall (eq y) lst
  | ArgIterable l => Forall2 (λ x y, conv x = inr y) l lst
  end.
Proof.
  intros Hn Hres. destruct arg as [v | v | l]; cbn in Hres.
  1, 2: destruct (conv v) as [e | y]; [done |]; injection Hres as <-;
        rewrite length_replicate; split; [lia |]; exists y; split; [done |];
        apply Forall_replicate; done.
  destruct (convert_items conv l) as [e | lst'] eqn:Hc; [done |].
  case_bool_decide as Hlen; [done |]. injection Hres as <-.
  split; [| by apply convert_items_ok].
  by destruct (decide (Z.of_nat (length lst') = ndim)).
Qed.

(** X20: whatever the form of the argument, a successful result has one
    entry for each of the [ndim] axes, and each entry is a converted item:
    a string or a value that cannot be iterated is converted once and
    repeated, an iterable is converted item by item. *)
Theorem _fix_sequence_arg_length arg ndim name lst :
  0 <= ndim →
  _fix_sequence_arg arg ndim name conv = inr lst →
  Z.of_nat (length lst) = ndim ∧
  match arg with
  | ArgStr v | ArgAtom v => ∃ y, conv v = inr y ∧ Forall (eq y) lst
  | ArgIterable l => Forall2 (λ x y, conv x = inr y) l lst
  end.
Proof. apply _fix_sequence_arg_items. Qed.

(** X21: an item that the conversion refuses wins over a wrong length: the
    call fails with the conversion's own exception on the first such item,
    whether or not the iterable has [ndim] items. *)
Theorem _fix_sequence_arg_conv_error_first l1 l2 x e ys ndim name :
  Forall2 (λ x y, conv x = inr y) l1 ys → conv x = inl e →
  _fix_sequence_arg (ArgIterable (l1 ++ x :: l2)) ndim name conv = inl e.
Proof.
  intros Hok Hx. cbn [_fix_sequence_arg].
  by rewrite (convert_items_raises l1 l2 x e ys).
Qed.

(** X22: an iterable whose items all convert and whose length is not [ndim]
    is refused with a [RuntimeError] that names the argument. *)
Theorem _fix_sequence_arg_wrong_length l lst ndim name :
  convert_items conv l = inr lst → Z.of_nat (length l) ≠ ndim →
  _fix_sequence_arg (ArgIterable l) ndim name conv
  = inl (RuntimeError (name +:+ " must have length equal to input rank")).
Proof.
  intros Hc Hlen. cbn [_fix_sequence_arg]. rewrite Hc.
  apply convert_items_ok, Forall2_length in Hc.
  rewrite bool_decide_eq_true_2; [done |]. by rewrite <- Hc.
Qed.

End SequenceArg.

(** X23: with [_check_mode] as the conversion, as the filters call it, every
    mode of a successful result is one of the eight accepted tags, and a
    single mode string is repeated for all axes rather than split into
    characters. *)
Theorem _fix_sequence_arg_modes arg ndim lst :
  0 <= ndim →
  _fix_sequence_arg arg ndim "mode" _check_mode = inr lst →
  Forall (λ mode, mode ∈ check_mode_tags) lst ∧
  (∀ s, arg = ArgStr s → lst = replicate (Z.to_nat ndim) s).
Proof.
  intros Hn Hres.
  assert (∀ x y, _check_mode x = inr y → y = x ∧ x ∈ check_mode_tags) as Hcm.
  { intros x y. unfold _check_mode. case_bool_decide as Hin; [done |].
    intros [= <-]. split; [done |].
    by destruct (decide (x ∈ check_mode_tags)). }
  destruct (_fix_sequence_arg_items _check_mode arg ndim "mode" lst Hn Hres)
    as [_ Hitems].
  split.
  - destruct arg as [v | v | l].
    1, 2: destruct Hitems as (y & Hy & Hall);
          apply Hcm in Hy as [-> Hin];
          eapply Forall_impl; [exact Hall |]; by intros ? <-.
    clear Hres.
    induction Hitems as [| x y l lst Hxy _ IH]; [constructor |].
    constructor; [| done]. by apply Hcm in Hxy as [-> ?].
  - intros s ->. cbn in Hres.
    destruct (_check_mode s) as [e | y] eqn:Hs; [done |].
    apply Hcm in Hs as [-> _]. by injection Hres as <-.
Qed.

Lemma _fix_sequence_arg_length_witness :
  Z.of_nat (length [3; 3]) = 2 ∧
  ∃ y, _check_origin 3 7 = inr y ∧ Forall (eq y) [3; 3].
Proof.
  apply (_fix_sequence_arg_length (λ o, _check_origin o 7)
           (ArgAtom 3) 2 "origin" [3; 3]); [lia | reflexivity].
Defined.

Lemma _fix_sequence_arg_conv_error_first_witness :
  _fix_sequence_arg (ArgIterable (["reflect"] ++ "bad" :: ["wrap"; "wrap"]))
    2 "mode" _check_mode
  = inl (RuntimeError "boundary mode not supported (actual: bad)").
Proof.
  apply (_fix_sequence_arg_conv_error_first _check_mode
           ["reflect"] ["wrap"; "wrap"] "bad" _ ["reflect"] 2 "mode").
  - repeat constructor.
  - reflexivity.
Defined.

Lemma _fix_sequence_arg_wrong_length_witness :
  _fix_sequence_arg (ArgIterable ["reflect"; "wrap"; "wrap"]) 2 "mode"
    _check_mode
  = inl (RuntimeError "mode must have length equal to input rank").
Proof.
  apply (_fix_sequence_arg_wrong_length _check_mode
           ["reflect"; "wrap"; "wrap"] ["reflect"; "wrap"; "wrap"] 2 "mode").
  - reflexivity.
  - cbn. lia.
Defined.

Lemma _fix_sequence_arg_modes_witness :
  Forall (λ mode, mode ∈ check_mode_tags) ["mirror"; "mirror"; "mirror"] ∧
  (∀ s, ArgStr "mirror" = ArgStr s →
        ["mirror"; "mirror"; "mirror"] = replicate (Z.to_nat 3) s).
Proof.
  apply (_fix_sequence_arg_modes (ArgStr "mirror") 3
           ["mirror"; "mirror"; "mirror"]); [lia | reflexivity].
Defined.

(** ** Fill value, output buffers and weight types *)

(** X24: a non-finite fill value is refused only for the tag [constant] with
    an integer output; the tag [grid-constant], for which the resolver emits
    the very same fragment, is never refused. *)
Theorem _check_cval_only_constant mode cval_isfinite integer_output :
  (_check_cval mode cval_isfinite integer_output ≠ inr ()
   ↔ mode = "constant" ∧ integer_output = true ∧ cval_isfinite = false) ∧
  _check_cval "grid-constant" cval_isfinite integer_output = inr () ∧
  ∀ ix xsize int_t float_ix,
    _generate_boundary_condition_ops "grid-constant" ix xsize int_t float_ix
    = _generate_boundary_condition_ops "constant" ix xsize int_t float_ix.
Proof.
  split; [| split; [reflexivity | intros; by pick_branch]].
  unfold _check_cval.
  case_bool_decide; destruct integer_output, cval_isfinite; cbn;
    split; (done || naive_solver).
Qed.

Section DtypesMore.

Context {dtype : Type}.
Context (kind : dtype → string).
Context (promote_types : dtype → dtype → dtype).
Context (complex64 float32 float64 : dtype).
Context (real_dtype : dtype → dtype).

(** X25: whatever form [output] has, a result of [_get_output] has the
    requested shape (the input's when none is given), and, when a complex
    output is asked for and promotion with [complex64] yields complex types,
    a complex type. *)
Theorem _get_output_shape_and_kind output input shape complex_output r :
  (∀ d, kind (promote_types d complex64) = "c") →
  _get_output kind promote_types complex64 output input shape complex_output
    = inr r →
  array_shape (out_array r) = default (array_shape input) shape ∧
  (complex_output = true → kind (array_dtype (out_array r)) = "c").
Proof.
  intros Hpromote Hres. unfold _get_output in Hres.
  assert (match shape with Some s => s | None => array_shape input end
          = default (array_shape input) shape) as Hs by by destruct shape.
  rewrite Hs in Hres. clear Hs.
  destruct output as [| a | d | d], complex_output; cbn in Hres.
  all: repeat case_bool_decide; cbn in Hres; try done.
  all: injection Hres as <-; cbn; split; first [done | by intros _ | idtac].
  all: try (intros _; by apply Hpromote).
  all: by destruct (decide (array_shape a = default (array_shape input) shape)).
Qed.

(** X26: a real type given as a type or dtype object is promoted to complex
    with a warning, while the same type given by name is an error. *)
Theorem _get_output_object_vs_name d input shape :
  kind d ≠ "c" →
  (∃ r, _get_output kind promote_types complex64 (OutDtype d) input shape true
          = inr r ∧
        array_dtype (out_array r) = promote_types d complex64 ∧
        out_warnings r = ["promoting specified output dtype to complex"]) ∧
  _get_output kind promote_types complex64 (OutStr d) input shape true
    = inl (RuntimeError "output must have complex dtype").
Proof.
  intros Hk. unfold _get_output.
  rewrite (bool_decide_eq_false_2 (kind d = "c")) by done. cbn.
  split; [| done]. eexists. split; [done |]. done.
Qed.

(** X27: a caller's array is either refused or returned itself, never
    replaced by a new one; it is returned exactly when it has the requested
    shape and, if a complex output is asked for, a complex type.  [None] and
    type objects always lead to a newly allocated array. *)
Theorem _get_output_own_array a input shape complex_output :
  (_get_output kind promote_types complex64 (OutArray a) input shape
     complex_output
     = inr {| out_array := a; out_allocated := false; out_warnings := [] |}
   ↔ array_shape a = default (array_shape input) shape ∧
     (complex_output = true → kind (array_dtype a) = "c")) ∧
  (∀ r, _get_output kind promote_types complex64 (OutArray a) input shape
          complex_output = inr r →
        out_array r = a ∧ out_allocated r = false) ∧
  (∀ d, ∃ r r',
     _get_output kind promote_types complex64 OutNone input shape
       complex_output = inr r ∧
     _get_output kind promote_types complex64 (OutDtype d) input shape
       complex_output = inr r' ∧
     out_allocated r = true ∧ out_allocated r' = true).
Proof.
  unfold _get_output.
  assert (match shape with Some s => s | None => array_shape input end
          = default (array_shape input) shape) as -> by by destruct shape.
  split; [| split].
  - destruct complex_output; repeat case_bool_decide; cbn;
      split; (done || naive_solver).
  - intros r. destruct complex_output; repeat case_bool_decide; cbn;
      try done; by intros [= <-].
  - intros d. destruct complex_output; cbn; [case_bool_decide |]; cbn;
      by eexists _, _.
Qed.

(** X28: without a request for a complex output, [_is_integer_output] tells
    the kind of the array that [_get_output] hands back: both look at the
    same type in each of the four forms of [output]. *)
Theorem _is_integer_output_of_result output input shape r :
  _get_output kind promote_types complex64 output input shape false = inr r →
  _is_integer_output kind output input
  = kind_in kind ["i"; "u"] (array_dtype (out_array r)).
Proof.
  unfold _get_output. destruct output as [| a | d | d]; cbn.
  1, 3, 4: by intros [= <-].
  case_bool_decide; [done |]. by intros [= <-].
Qed.

(** X29: for weights that are neither complex nor of integer or boolean
    kind the weight type depends on the input alone and is the one
    [_init_weights_dtype] chooses; complex weights make it complex, and
    integer or boolean weights on a real input make it [float64]. *)
Theorem _get_weights_dtype_cases input weights :
  (kind (array_dtype weights) ∉ ["c"; "i"; "u"; "b"] →
   _get_weights_dtype kind promote_types complex64 float32 float64
     real_dtype input weights
   = _init_weights_dtype kind promote_types complex64 float32 real_dtype
       input) ∧
  (kind (array_dtype weights) = "c" →
   _get_weights_dtype kind promote_types complex64 float32 float64
     real_dtype input weights
   = promote_types (real_dtype (array_dtype input)) complex64) ∧
  (kind (array_dtype weights) ∈ ["i"; "u"; "b"] →
   kind (array_dtype input) ≠ "c" →
   _get_weights_dtype kind promote_types complex64 float32 float64
     real_dtype input weights
   = float64).
Proof.
  unfold _get_weights_dtype, _init_weights_dtype, kind_in.
  repeat split.
  - rewrite !not_elem_of_cons. intros (Hc & Hi & Hu & Hb & _).
    rewrite (bool_decide_eq_false_2 (kind (array_dtype weights) = "c"))
      by done.
    cbn [orb]. case_bool_decide; [done |].
    rewrite bool_decide_eq_false_2; [done |].
    rewrite !elem_of_cons, elem_of_nil. naive_solver.
  - intros Hc. by rewrite (bool_decide_eq_true_2 _ Hc).
  - intros Hin Hreal.
    assert (kind (array_dtype weights) ≠ "c") as Hc.
    { intros Heq. rewrite Heq in Hin.
      rewrite !elem_of_cons, elem_of_nil in Hin. naive_solver. }
    rewrite !bool_decide_eq_false_2 by done. cbn [orb].
    by rewrite bool_decide_eq_true_2.
Qed.

End DtypesMore.

Lemma _get_output_shape_and_kind_witness :
  array_shape (empty [2; 3] "c") = default [2; 3] None ∧
  (true = true → id (array_dtype (empty [2; 3] "c")) = "c").
Proof.
  apply (_get_output_shape_and_kind id toy_promote "c"
           (OutDtype "f") (empty [2; 3] "f") None true
           {| out_array := empty [2; 3] "c"; out_allocated := true;
              out_warnings :=
                ["promoting specified output dtype to complex"] |}).
  - intros d. unfold toy_promote. by rewrite orb_true_r.
  - reflexivity.
Defined.

Lemma _get_output_object_vs_name_witness :
  _get_output id toy_promote "c" (OutStr "f") (empty [2; 3] "f") None true
  = inl (RuntimeError "output must have complex dtype").
Proof.
  apply (_get_output_object_vs_name id toy_promote "c" "f"
           (empty [2; 3] "f") None).
  done.
Defined.

Lemma _is_integer_output_of_result_witness :
  _is_integer_output id (OutStr "i") (empty [2; 3] "f")
  = kind_in id ["i"; "u"] (array_dtype (empty [4] "i")).
Proof.
  apply (_is_integer_output_of_result id toy_promote "c"
           (OutStr "i") (empty [2; 3] "f") (Some [4])
           {| out_array := empty [4] "i"; out_allocated := true;
              out_warnings := [] |}).
  reflexivity.
Defined.
